(** * The chatbot tutorial's glue code: session store and history truncation

    The notebook [docs/docs/tutorials/chatbot.ipynb] defines two utilities of
    its own: [get_session_history], a lookup-or-create access to the module
    level dictionary [store], and [filter_messages], which truncates a list of
    messages with the slice [messages[-k:]].  This development embeds both,
    together with the truncation step of the composed chain, and proves what
    the tutorial's description says about them. *)

From stdpp Require Import base numbers list strings gmap fin_maps.

Local Open Scope Z_scope.

(** ** Messages *)

(** A chat message is a role plus its text content; the notebook builds them
    with the three constructors below. *)
Inductive BaseMessage : Type :=
  | HumanMessage (content : string)
  | AIMessage (content : string)
  | SystemMessage (content : string).

#[global] Instance BaseMessage_eq_dec : EqDecision BaseMessage.
Proof. solve_decision. Defined.

(** ** Python list slicing *)

Section slicing.
Context {A : Type}.

(** Start position of [l[start:]] for a list of length [len]: a negative
    start counts from the end, and whatever falls outside is clamped to the
    list.  Slicing never raises. *)
Definition slice_start (len start : Z) : Z :=
  if start <? 0 then Z.max (start + len) 0 else Z.min start len.

(** [l[start:]]. *)
Definition slice_from (l : list A) (start : Z) : list A :=
  drop (Z.to_nat (slice_start (Z.of_nat (length l)) start)) l.

(** [def filter_messages(messages, k=10): return messages[-k:]] *)
Definition filter_messages (messages : list A) (k : Z) : list A :=
  slice_from messages (- k).

(** What the tutorial's text asks of the truncation: the [k] most recent
    entries, that is the trailing [k] elements, or everything when there
    are fewer than [k]. *)
Definition trailing (k : nat) (l : list A) : list A :=
  drop (length l - k)%nat l.

End slicing.

(** The default value of the keyword argument [k]. *)
Definition filter_messages_k_default : Z := 10.

(** ** Exceptions *)

(** The exceptions the modelled statements can raise: the [KeyError] of a
    dictionary subscript on a missing key, and the [TypeError] of a
    subscript on an object that has none, which names the object's type. *)
Inductive exn : Type :=
  | KeyError (key : string)
  | TypeError (type_name : string).

Inductive result (A : Type) : Type :=
  | Ok (a : A)
  | Raise (e : exn).
Arguments Ok {A} a.
Arguments Raise {A} e.

#[global] Instance result_ret : MRet result := λ A a, Ok a.
#[global] Instance result_bind : MBind result := λ A B f r,
  match r with
  | Ok a => f a
  | Raise e => Raise e
  end.

(** ** Objects, the module's [store], and the interpreter state *)

(** Object identities.  The dictionary [store] holds references, so that a
    history handed out by [get_session_history] and the history kept in
    [store] are one object. *)
Abbreviation loc := positive (only parsing).

(** Modelled from the spec: the class [ChatMessageHistory] is imported from
    [langchain_community] and is not part of the notebook; a message history
    is an ordered list of prior conversational turns. *)
Record ChatMessageHistory : Type := mkChatMessageHistory {
  messages : list BaseMessage
}.

(** Modelled from the spec: the object that the constructor call
    [ChatMessageHistory()] builds, a history without any turn. *)
Definition ChatMessageHistory_init : ChatMessageHistory :=
  {| messages := [] |}.

Record state : Type := State {
  store : gmap string loc;                (* the global [store = {}] *)
  heap : gmap loc ChatMessageHistory      (* the history objects alive *)
}.

(** [store = {}], over whatever objects exist already. *)
Definition initial (hp : gmap loc ChatMessageHistory) : state :=
  {| store := ∅; heap := hp |}.

(** Statements run on the state and may raise. *)
Definition M (A : Type) : Type := state → result (A * state).

#[global] Instance M_ret : MRet M := λ A a σ, Ok (a, σ).
#[global] Instance M_bind : MBind M := λ A B f m σ,
  match m σ with
  | Ok (a, σ') => f a σ'
  | Raise e => Raise e
  end.

(** The identity of a newly built object differs from that of every object
    that exists or is referred to. *)
Definition new_loc (σ : state) : loc :=
  fresh (dom (heap σ) ∪ map_img (SA := gset loc) (store σ)).

(** [ChatMessageHistory()] *)
Definition ChatMessageHistory_new : M loc := λ σ,
  let l := new_loc σ in
  Ok (l, {| store := store σ; heap := <[l := ChatMessageHistory_init]> (heap σ) |}).

(** [key in store] *)
Definition store_contains (key : string) : M bool := λ σ,
  Ok (bool_decide (is_Some (store σ !! key)), σ).

(** [store[key] = h] *)
Definition store_setitem (key : string) (h : loc) : M unit := λ σ,
  Ok (tt, {| store := <[key := h]> (store σ); heap := heap σ |}).

(** [store[key]], which raises [KeyError] on a missing key. *)
Definition store_getitem (key : string) : M loc := λ σ,
  match store σ !! key with
  | Some h => Ok (h, σ)
  | None => Raise (KeyError key)
  end.

(** [[
def get_session_history(session_id: str) -> BaseChatMessageHistory:
    if session_id not in store:
        store[session_id] = ChatMessageHistory()
    return store[session_id]
]] *)
Definition get_session_history (session_id : string) : M loc :=
  present ← store_contains session_id;
  (if negb present
   then h ← ChatMessageHistory_new; store_setitem session_id h
   else mret tt) ;;
  store_getitem session_id.

(** A finite sequence of calls, one per session id of [ids], in order; the
    histories returned are collected. *)
Fixpoint get_session_histories (ids : list string) : M (list loc) :=
  match ids with
  | [] => mret []
  | session_id :: ids' =>
      h ← get_session_history session_id;
      hs ← get_session_histories ids';
      mret (h :: hs)
  end.

(** The store invariant: the keys are the session ids [queried] so far, and
    every value refers to a [ChatMessageHistory] object. *)
Definition store_inv (queried : gset string) (σ : state) : Prop :=
  dom (store σ) = queried ∧
  ∀ session_id h, store σ !! session_id = Some h → is_Some (heap σ !! h).

(** No two session ids are bound to one history object. *)
Definition store_injective (σ : state) : Prop :=
  ∀ s1 s2 h, store σ !! s1 = Some h → store σ !! s2 = Some h → s1 = s2.

(** ** The truncation step of the chain *)

(** The values an input dictionary of the chain may bind: a text, as
    the one of ["language"], which is a sequence of code points; a list of
    messages, as the one of ["messages"]; and [None] and the integers, which
    have no subscript. *)
Inductive value : Type :=
  | VNone
  | VInt (z : Z)
  | VStr (s : list N)
  | VMessages (l : list BaseMessage).

(** The text of a literal written in ASCII: each of its characters is the
    code point of its byte. *)
Definition str_of_ascii (s : string) : list N :=
  Ascii.N_of_ascii <$> String.list_ascii_of_string s.

(** [x[key]] on an input dictionary. *)
Definition dict_getitem (x : gmap string value) (key : string) : result value :=
  match x !! key with
  | Some v => Ok v
  | None => Raise (KeyError key)
  end.

(** [filter_messages] on a value.  A list is sliced element by element and
    a text code point by code point; the subscript of any other object
    raises [TypeError]. *)
Definition filter_messages_value (v : value) (k : Z) : result value :=
  match v with
  | VNone => Raise (TypeError "NoneType")
  | VInt _ => Raise (TypeError "int")
  | VStr s => Ok (VStr (filter_messages s k))
  | VMessages l => Ok (VMessages (filter_messages l k))
  end.

(** [lambda x: filter_messages(x["messages"])] *)
Definition truncate (x : gmap string value) : result value :=
  v ← dict_getitem x "messages";
  filter_messages_value v filter_messages_k_default.

(** Modelled from the spec: [RunnablePassthrough.assign] belongs to
    [langchain_core] and is not part of the notebook; the step it builds
    passes its input dictionary on with [key] bound to what [f] computes
    from that input, every other key kept. *)
Definition RunnablePassthrough_assign (key : string)
    (f : gmap string value → result value)
    (input : gmap string value) : result (gmap string value) :=
  v ← f input;
  mret (<[key := v]> input).

(** [RunnablePassthrough.assign(messages=lambda x: filter_messages(x["messages"]))] *)
Definition chain_truncation : gmap string value → result (gmap string value) :=
  RunnablePassthrough_assign "messages" truncate.

(** The conversation of the notebook's cell 43. *)
Definition notebook_messages : list BaseMessage :=
  [ HumanMessage "hi! I'm bob"; AIMessage "hi!";
    HumanMessage "I like vanilla ice cream"; AIMessage "nice";
    HumanMessage "whats 2 + 2"; AIMessage "4";
    HumanMessage "thanks"; AIMessage "no problem!";
    HumanMessage "having fun?"; AIMessage "yes!" ].

(** A state in which session ["abc2"] has talked already: its history is
    object [1] and holds the notebook's opening turn. *)
Definition bob_state : state :=
  {| store := {[ "abc2" := 1%positive ]};
     heap := {[ 1%positive := {| messages := [HumanMessage "Hi! I'm Bob"] |} ]} |}.

(** The input of the notebook's cell 47. *)
Definition notebook_input : gmap string value :=
  <[ "language" := VStr (str_of_ascii "English") ]>
    {[ "messages" := VMessages (notebook_messages ++ [HumanMessage "what's my name?"]) ]}.

(** * Properties *)

(** ** Truncation *)

Section slicing_facts.
Context {A : Type}.
Implicit Types (messages : list A) (k : Z).

Lemma slice_start_range len start :
  0 ≤ len → 0 ≤ slice_start len start ≤ len.
Proof.
  intros Hlen. unfold slice_start.
  destruct (Z.ltb_spec start 0); lia.
Qed.

(** Whatever the integer [k], the result is a suffix of the input. *)
Lemma filter_messages_suffix messages k :
  ∃ n, (n ≤ length messages)%nat ∧ filter_messages messages k = drop n messages.
Proof.
  unfold filter_messages, slice_from.
  set (len := Z.of_nat (length messages)).
  exists (Z.to_nat (slice_start len (- k))). split; [|done].
  pose proof (slice_start_range len (- k)). lia.
Qed.

(** For a positive [k] the slice is the trailing [k] elements, or the whole
    list when it is shorter than that. *)
Lemma filter_messages_pos messages k :
  0 < k → filter_messages messages k = trailing (Z.to_nat k) messages.
Proof.
  intros Hk. unfold filter_messages, slice_from, trailing, slice_start.
  destruct (Z.ltb_spec (- k) 0) as [_|]; [|lia].
  f_equal. lia.
Qed.

(** The two cases of the tutorial's description, which hold for every
    positive [k]. *)
Lemma filter_messages_pos_cases messages k :
  0 < k →
  (k ≤ Z.of_nat (length messages) →
     filter_messages messages k = drop (length messages - Z.to_nat k) messages ∧
     Z.of_nat (length (filter_messages messages k)) = k) ∧
  (Z.of_nat (length messages) < k → filter_messages messages k = messages).
Proof.
  intros Hk. rewrite filter_messages_pos by done. unfold trailing. split.
  - intros Hle. split; [done|]. rewrite length_drop. lia.
  - intros Hlt.
    by replace (length messages - Z.to_nat k)%nat with 0%nat by lia.
Qed.

Lemma trailing_ge messages (n : nat) :
  (length messages ≤ n)%nat → trailing n messages = messages.
Proof.
  intros Hn. unfold trailing.
  replace (length messages - n)%nat with 0%nat by lia. done.
Qed.

Lemma trailing_length messages (n : nat) :
  length (trailing n messages) = (n `min` length messages)%nat.
Proof. unfold trailing. rewrite length_drop. lia. Qed.

(** A negative [k] turns the slice into [messages[|k|:]]: it drops from
    the front. *)
Lemma filter_messages_neg messages k :
  k < 0 → filter_messages messages k = drop (Z.to_nat (- k)) messages.
Proof.
  intros Hk. unfold filter_messages, slice_from, slice_start.
  destruct (Z.ltb_spec (- k) 0) as [|_]; [lia|].
  destruct (Z.le_gt_cases (- k) (Z.of_nat (length messages))).
  - f_equal. lia.
  - rewrite !drop_ge; [done|lia..].
Qed.

End slicing_facts.

(** The notebook's own run: eleven messages go in, the first is forgotten. *)
Example filter_messages_notebook :
  filter_messages (notebook_messages ++ [HumanMessage "what's my name?"])
                  filter_messages_k_default
  = tail notebook_messages ++ [HumanMessage "what's my name?"].
Proof. reflexivity. Qed.

(** Claim C1, at the input where the code departs from it: asked for the
    trailing zero messages of the notebook's ten message conversation,
    [filter_messages] hands the whole conversation back, while the trailing
    zero elements of a list are no elements at all. *)
Theorem filter_messages_zero_not_trailing :
  filter_messages notebook_messages 0 = notebook_messages ∧
  trailing (Z.to_nat 0) notebook_messages = [] ∧
  filter_messages notebook_messages 0 ≠ trailing (Z.to_nat 0) notebook_messages.
Proof. split_and!; [reflexivity | reflexivity | discriminate]. Qed.

(** Claim C6: with [k = 0] the slice [messages[-0:]] is [messages[0:]], so
    [filter_messages] returns the entire input list and not the empty one. *)
Theorem filter_messages_zero {A : Type} (messages : list A) :
  filter_messages messages 0 = messages.
Proof.
  unfold filter_messages, slice_from, slice_start.
  change (- 0 <? 0) with false. cbv iota.
  by replace (Z.to_nat ((- 0) `min` Z.of_nat (length messages))) with 0%nat by lia.
Qed.

(** ** The session store *)

(** Runs the statements of the state monad at the head of the goal. *)
Ltac run_M :=
  unfold get_session_history, store_contains, store_getitem, store_setitem,
    ChatMessageHistory_new;
  unfold mbind, M_bind, mret, M_ret; cbn.

Section session_store.
Implicit Types (σ : state) (session_id : string) (h : loc).

(** A new identity is neither an object of the heap nor a value of
    [store]. *)
Lemma new_loc_heap σ : heap σ !! new_loc σ = None.
Proof.
  apply not_elem_of_dom. intros Hin.
  apply (is_fresh (dom (heap σ) ∪ map_img (SA := gset loc) (store σ))).
  apply elem_of_union_l, Hin.
Qed.

Lemma new_loc_store σ session_id : store σ !! session_id ≠ Some (new_loc σ).
Proof.
  intros Hin.
  apply (is_fresh (dom (heap σ) ∪ map_img (SA := gset loc) (store σ))).
  apply elem_of_union_r, elem_of_map_img. by exists session_id.
Qed.

(** The two paths through [get_session_history]. *)
Lemma get_session_history_present σ session_id h :
  store σ !! session_id = Some h →
  get_session_history session_id σ = Ok (h, σ).
Proof.
  intros Hin. run_M.
  rewrite bool_decide_true by eauto. cbn. by rewrite Hin.
Qed.

Lemma get_session_history_absent σ session_id :
  store σ !! session_id = None →
  get_session_history session_id σ =
    Ok (new_loc σ,
        {| store := <[session_id := new_loc σ]> (store σ);
           heap := <[new_loc σ := ChatMessageHistory_init]> (heap σ) |}).
Proof.
  intros Hout. run_M.
  rewrite bool_decide_false by (rewrite Hout; by intros [??]).
  cbn. by rewrite lookup_insert_eq.
Qed.

(** A call never raises, and what it returns is the store's entry. *)
Lemma get_session_history_returns σ session_id :
  ∃ h σ', get_session_history session_id σ = Ok (h, σ') ∧
          store σ' !! session_id = Some h.
Proof.
  destruct (store σ !! session_id) as [h|] eqn:Hlook.
  - exists h, σ. by rewrite (get_session_history_present _ _ h).
  - eexists _, _. rewrite get_session_history_absent by done.
    split; [done|]. cbn. by rewrite lookup_insert_eq.
Qed.

(** One call leaves every entry that exists, and the object it refers to,
    as they are. *)
Lemma get_session_history_stable σ session_id h' σ' key h :
  get_session_history session_id σ = Ok (h', σ') →
  store σ !! key = Some h →
  store σ' !! key = Some h ∧ heap σ' !! h = heap σ !! h.
Proof.
  intros Hcall Hkey.
  destruct (store σ !! session_id) as [h0|] eqn:Hlook.
  - rewrite (get_session_history_present _ _ h0) in Hcall by done.
    by simplify_eq.
  - rewrite get_session_history_absent in Hcall by done.
    simplify_eq. cbn. split.
    + rewrite lookup_insert_ne; [done|]. intros ->. congruence.
    + rewrite lookup_insert_ne; [done|]. intros Heq.
      apply (new_loc_store σ key). by rewrite Heq.
Qed.

(** One call keeps the invariant, with the queried id added. *)
Lemma get_session_history_inv queried σ session_id :
  store_inv queried σ →
  ∃ h σ', get_session_history session_id σ = Ok (h, σ') ∧
          store_inv (queried ∪ {[session_id]}) σ'.
Proof.
  intros [Hdom Hobj].
  destruct (store σ !! session_id) as [h|] eqn:Hlook.
  - exists h, σ. split; [by apply get_session_history_present|].
    split; [|done]. rewrite <- Hdom.
    symmetry. rewrite (comm_L (∪)). apply subseteq_union_1_L.
    apply singleton_subseteq_l, elem_of_dom. eauto.
  - eexists _, _. split; [by apply get_session_history_absent|].
    split; cbn.
    + by rewrite dom_insert_L, Hdom, (comm_L (∪)).
    + intros key h Hkey.
      destruct (decide (h = new_loc σ)) as [->|Hne].
      * rewrite lookup_insert_eq. eauto.
      * rewrite lookup_insert_ne by done.
        destruct (decide (session_id = key)) as [->|Hkne].
        -- rewrite lookup_insert_eq in Hkey. congruence.
        -- rewrite lookup_insert_ne in Hkey by done. eauto.
Qed.

(** A sequence of calls runs to its end and keeps the invariant. *)
Lemma get_session_histories_inv ids queried σ :
  store_inv queried σ →
  ∃ hs σ', get_session_histories ids σ = Ok (hs, σ') ∧
           store_inv (queried ∪ list_to_set ids) σ'.
Proof.
  revert queried σ. induction ids as [|session_id ids IH]; intros queried σ Hinv.
  - exists [], σ. split; [done|]. cbn.
    by rewrite (right_id_L ∅ (∪)).
  - destruct (get_session_history_inv _ _ session_id Hinv) as (h & σ1 & Hcall & Hinv1).
    destruct (IH _ _ Hinv1) as (hs & σ' & Hrest & Hinv').
    exists (h :: hs), σ'. split.
    + cbn. unfold mbind, M_bind. rewrite Hcall. by rewrite Hrest.
    + cbn. by rewrite (assoc_L (∪)).
Qed.

(** A sequence of calls leaves every entry that exists, and the object it
    refers to, as they are. *)
Lemma get_session_histories_stable ids σ key h :
  store σ !! key = Some h →
  ∃ hs σ', get_session_histories ids σ = Ok (hs, σ') ∧
           store σ' !! key = Some h ∧ heap σ' !! h = heap σ !! h.
Proof.
  revert σ. induction ids as [|session_id ids IH]; intros σ Hkey.
  - by exists [], σ.
  - destruct (get_session_history_returns σ session_id) as (h1 & σ1 & Hcall & _).
    destruct (get_session_history_stable _ _ _ _ _ _ Hcall Hkey) as [Hkey1 Hheap1].
    destruct (IH _ Hkey1) as (hs & σ' & Hrest & Hkey' & Hheap').
    exists (h1 :: hs), σ'. split_and!.
    + cbn. unfold mbind, M_bind. rewrite Hcall. by rewrite Hrest.
    + done.
    + congruence.
Qed.

End session_store.

(** Claim C2: [get_session_history] is a get-or-insert-default on [store].
    For a session id that is not a key, it binds the id to a new, empty
    history, an object that did not exist and that no other entry refers to,
    and returns it; for a session id that is a key, it returns the history
    bound to it and leaves the state as it is. *)
Theorem get_session_history_get_or_insert (session_id : string) (σ : state) :
  (store σ !! session_id = None →
   ∃ h, get_session_history session_id σ =
          Ok (h, {| store := <[session_id := h]> (store σ);
                    heap := <[h := ChatMessageHistory_init]> (heap σ) |})
        ∧ heap σ !! h = None
        ∧ ∀ key, store σ !! key ≠ Some h) ∧
  (∀ h, store σ !! session_id = Some h →
        get_session_history session_id σ = Ok (h, σ)).
Proof.
  split.
  - intros Hout. exists (new_loc σ). split_and!.
    + by apply get_session_history_absent.
    + apply new_loc_heap.
    + apply new_loc_store.
  - intros h Hin. by apply get_session_history_present.
Qed.

Lemma get_session_history_get_or_insert_witness :
  (∃ h, get_session_history "abc2" (initial ∅) =
          Ok (h, {| store := <["abc2" := h]> (store (initial ∅));
                    heap := <[h := ChatMessageHistory_init]> (heap (initial ∅)) |})
        ∧ heap (initial ∅) !! h = None
        ∧ ∀ key, store (initial ∅) !! key ≠ Some h) ∧
  get_session_history "abc2" bob_state = Ok (1%positive, bob_state).
Proof.
  split.
  - apply (proj1 (get_session_history_get_or_insert "abc2" (initial ∅))).
    reflexivity.
  - apply (proj2 (get_session_history_get_or_insert "abc2" bob_state)).
    reflexivity.
Defined.

(** Claim C3: neither utility raises.  Whatever the session id and the
    state, [get_session_history] ends in a returned history, never in the
    [KeyError] of its subscript; whatever the list and the integer [k],
    negative ones included, [filter_messages] yields a list, a suffix of its
    input. *)
Theorem utilities_never_raise :
  (∀ (session_id : string) (σ : state),
     (∃ h σ', get_session_history session_id σ = Ok (h, σ')) ∧
     (∀ e, get_session_history session_id σ ≠ Raise e)) ∧
  (∀ (A : Type) (messages : list A) (k : Z),
     ∃ n, (n ≤ length messages)%nat ∧ filter_messages messages k = drop n messages).
Proof.
  split.
  - intros session_id σ.
    destruct (get_session_history_returns σ session_id) as (h & σ' & Hcall & _).
    split; [by exists h, σ'|]. intros e. by rewrite Hcall.
  - intros A messages k. apply filter_messages_suffix.
Qed.

(** Claim C4: sessions are independent.  A call for session [s1] leaves the
    entry of every other session [s2] as it was, be it absent or bound, and
    does not touch the history object that entry refers to. *)
Theorem get_session_history_frame (s1 s2 : string) (σ : state) :
  s1 ≠ s2 →
  ∃ h σ', get_session_history s1 σ = Ok (h, σ') ∧
          store σ' !! s2 = store σ !! s2 ∧
          ∀ h2, store σ !! s2 = Some h2 → heap σ' !! h2 = heap σ !! h2.
Proof.
  intros Hne.
  destruct (get_session_history_returns σ s1) as (h & σ' & Hcall & _).
  exists h, σ'. split_and!; [done| |].
  - destruct (store σ !! s2) as [h2|] eqn:Hs2.
    + by destruct (get_session_history_stable _ _ _ _ _ _ Hcall Hs2).
    + destruct (store σ !! s1) as [h1|] eqn:Hs1.
      * rewrite (get_session_history_present _ _ h1) in Hcall by done.
        by simplify_eq.
      * rewrite get_session_history_absent in Hcall by done.
        simplify_eq. cbn. by rewrite lookup_insert_ne.
  - intros h2 Hs2.
    by destruct (get_session_history_stable _ _ _ _ _ _ Hcall Hs2).
Qed.

Lemma get_session_history_frame_witness :
  ∃ h σ', get_session_history "abc3" bob_state = Ok (h, σ') ∧
          store σ' !! "abc2" = store bob_state !! "abc2" ∧
          ∀ h2, store bob_state !! "abc2" = Some h2 →
                heap σ' !! h2 = heap bob_state !! h2.
Proof.
  apply (get_session_history_frame "abc3" "abc2" bob_state).
  vm_compute. discriminate.
Defined.

Lemma bob_state_inv : store_inv {[ "abc2" ]} bob_state.
Proof.
  split.
  - cbn. apply dom_singleton_L.
  - cbn. intros session_id h [_ <-]%lookup_singleton_Some.
    rewrite lookup_singleton_eq. eauto.
Qed.

(** Claim C5: the store invariant.  It holds of the empty store; every call
    keeps it, adding the queried session id to the key set; and so, from the
    empty store, any finite sequence of calls runs to its end in a state
    whose keys are exactly the ids queried and whose values all refer to
    [ChatMessageHistory] objects. *)
Theorem store_invariant :
  (∀ hp, store_inv ∅ (initial hp)) ∧
  (∀ queried σ session_id,
     store_inv queried σ →
     ∃ h σ', get_session_history session_id σ = Ok (h, σ') ∧
             store_inv (queried ∪ {[session_id]}) σ') ∧
  (∀ hp ids,
     ∃ hs σ', get_session_histories ids (initial hp) = Ok (hs, σ') ∧
              store_inv (list_to_set ids) σ').
Proof.
  assert (Hinit : ∀ hp, store_inv ∅ (initial hp)).
  { intros hp. split; cbn.
    - apply dom_empty_L.
    - intros session_id h Hin. by rewrite lookup_empty in Hin. }
  split_and!.
  - exact Hinit.
  - intros queried σ session_id. apply get_session_history_inv.
  - intros hp ids.
    destruct (get_session_histories_inv ids _ _ (Hinit hp)) as (hs & σ' & Hrun & Hinv).
    exists hs, σ'. split; [done|]. by rewrite (left_id_L ∅ (∪)) in Hinv.
Qed.

Lemma store_invariant_witness :
  ∃ h σ', get_session_history "abc3" bob_state = Ok (h, σ') ∧
          store_inv ({[ "abc2" ]} ∪ {[ "abc3" ]}) σ'.
Proof.
  apply (proj1 (proj2 store_invariant) {[ "abc2" ]} bob_state "abc3").
  exact bob_state_inv.
Defined.

(** Claim C7: [get_session_history] is idempotent and history-stable.  The
    first call leaves the session id bound in the store to the history it
    returns, and a second call with the same session id returns that very
    entry and changes nothing; and an entry that is in the store
    stays bound to the same history object, with the same content, through
    any later sequence of calls, whatever their session ids. *)
Theorem get_session_history_idempotent_stable :
  (∀ (session_id : string) (σ : state),
     ∃ h σ', get_session_history session_id σ = Ok (h, σ') ∧
             store σ' !! session_id = Some h ∧
             get_session_history session_id σ' = Ok (h, σ')) ∧
  (∀ (session_id : string) (h : loc) (σ : state) (ids : list string),
     store σ !! session_id = Some h →
     ∃ hs σ', get_session_histories ids σ = Ok (hs, σ') ∧
              store σ' !! session_id = Some h ∧
              heap σ' !! h = heap σ !! h).
Proof.
  split.
  - intros session_id σ.
    destruct (get_session_history_returns σ session_id) as (h & σ' & Hcall & Hin).
    exists h, σ'. split_and!; [done..|]. by apply get_session_history_present.
  - intros session_id h σ ids Hin. by apply get_session_histories_stable.
Qed.

Lemma get_session_history_idempotent_stable_witness :
  ∃ hs σ', get_session_histories ["abc3"; "abc2"; "abc3"] bob_state = Ok (hs, σ') ∧
           store σ' !! "abc2" = Some 1%positive ∧
           heap σ' !! 1%positive = heap bob_state !! 1%positive.
Proof.
  apply (proj2 get_session_history_idempotent_stable "abc2" 1%positive bob_state).
  reflexivity.
Defined.

(** ** The truncation step *)

(** Claim C8: on an input dictionary that has a list under ["messages"], the
    truncation step yields a dictionary in which ["messages"] is bound to
    [filter_messages] of that list, with the default [k], and in which every
    other key is bound, or absent, exactly as in the input. *)
Theorem chain_truncation_frame (x : gmap string value) (msgs : list BaseMessage) :
  x !! "messages" = Some (VMessages msgs) →
  ∃ y, chain_truncation x = Ok y ∧
       y !! "messages" = Some (VMessages (filter_messages msgs filter_messages_k_default)) ∧
       ∀ key, key ≠ "messages" → y !! key = x !! key.
Proof.
  intros Hmsgs.
  unfold chain_truncation, RunnablePassthrough_assign, truncate, dict_getitem.
  rewrite Hmsgs. cbn. eexists. split_and!; [done| |].
  - by rewrite lookup_insert_eq.
  - intros key Hkey. by rewrite lookup_insert_ne.
Qed.

Lemma chain_truncation_frame_witness :
  ∃ y, chain_truncation notebook_input = Ok y ∧
       y !! "messages" =
         Some (VMessages (filter_messages
                 (notebook_messages ++ [HumanMessage "what's my name?"])
                 filter_messages_k_default)) ∧
       ∀ key, key ≠ "messages" → y !! key = notebook_input !! key.
Proof.
  apply (chain_truncation_frame notebook_input).
  reflexivity.
Defined.

(** Without a ["messages"] key the step raises the subscript's [KeyError]. *)
Example chain_truncation_missing :
  chain_truncation {[ "language" := VStr (str_of_ascii "English") ]} = Raise (KeyError "messages").
Proof. reflexivity. Qed.

(** In the notebook's run the language survives and the first message goes. *)
Example chain_truncation_notebook :
  chain_truncation notebook_input =
    Ok (<[ "messages" := VMessages (tail notebook_messages ++ [HumanMessage "what's my name?"]) ]>
          notebook_input).
Proof. reflexivity. Qed.


(** * Further properties of the notebook's code *)

(** ** The window of [filter_messages] *)

Section window.
Context {A : Type}.
Implicit Types (messages : list A) (k : Z).

(** Property X1: for a positive [k] the result is the input without its first
    [len - k] elements (none when [k] exceeds the length), so it holds
    [min k len] elements. *)
Theorem filter_messages_window messages k :
  0 < k →
  filter_messages messages k = drop (length messages - Z.to_nat k) messages ∧
  length (filter_messages messages k) = (Z.to_nat k `min` length messages)%nat.
Proof.
  intros Hk. rewrite filter_messages_pos by done. unfold trailing.
  split; [done|]. rewrite length_drop. lia.
Qed.

(** Property X2: a negative [k] does not raise and does not select recent messages: the
    slice becomes [messages[|k|:]], which drops the |k| oldest messages and
    keeps all the others, and is empty from [|k| = len] on. *)
Theorem filter_messages_negative messages k :
  k < 0 →
  filter_messages messages k = drop (Z.to_nat (- k)) messages ∧
  length (filter_messages messages k) = (length messages - Z.to_nat (- k))%nat ∧
  (Z.of_nat (length messages) ≤ - k → filter_messages messages k = []).
Proof.
  intros Hk. rewrite filter_messages_neg by done. split_and!.
  - done.
  - apply length_drop.
  - intros Hall. apply drop_ge. lia.
Qed.

(** Property X3: the newest message is never cut: with a positive [k], truncating a
    conversation that ends in [m] keeps [m] and, before it, the [k - 1] most
    recent earlier messages. *)
Theorem filter_messages_snoc messages (m : A) k :
  0 < k →
  filter_messages (messages ++ [m]) k =
    drop (length messages - (Z.to_nat k - 1)) messages ++ [m].
Proof.
  intros Hk. rewrite filter_messages_pos by done. unfold trailing.
  rewrite length_app, drop_app. cbn [length].
  replace (length messages + 1 - Z.to_nat k)%nat
    with (length messages - (Z.to_nat k - 1))%nat by lia.
  f_equal.
  replace (length messages - (Z.to_nat k - 1) - length messages)%nat
    with 0%nat by lia.
  done.
Qed.

Lemma filter_messages_min messages j k :
  0 < j → 0 < k →
  filter_messages (filter_messages messages j) k =
    filter_messages messages (j `min` k).
Proof.
  intros Hj Hk. rewrite !filter_messages_pos by lia. unfold trailing.
  rewrite drop_drop, length_drop. f_equal. lia.
Qed.

Lemma filter_messages_idem messages k :
  0 ≤ k →
  filter_messages (filter_messages messages k) k = filter_messages messages k.
Proof.
  intros Hk. destruct (decide (k = 0)) as [->|Hne].
  - assert (Hzero : ∀ l : list A, filter_messages l 0 = l).
    { intros l. unfold filter_messages, slice_from, slice_start.
      change (- 0 <? 0) with false. cbv iota.
      by replace (Z.to_nat ((- 0) `min` Z.of_nat (length l))) with 0%nat by lia. }
    by rewrite !Hzero.
  - rewrite filter_messages_min by lia. f_equal. lia.
Qed.

(** Property X4: truncating twice with positive windows is truncating once with the
    smaller one; and for every [k ≥ 0] truncating again with the same [k]
    changes nothing. *)
Theorem filter_messages_compose messages :
  (∀ j k, 0 < j → 0 < k →
     filter_messages (filter_messages messages j) k =
       filter_messages messages (j `min` k)) ∧
  (∀ k, 0 ≤ k →
     filter_messages (filter_messages messages k) k = filter_messages messages k).
Proof.
  split.
  - intros j k. apply filter_messages_min.
  - intros k. apply filter_messages_idem.
Qed.

End window.

Lemma filter_messages_window_witness :
  filter_messages notebook_messages 3 =
    drop (length notebook_messages - Z.to_nat 3) notebook_messages ∧
  length (filter_messages notebook_messages 3) =
    (Z.to_nat 3 `min` length notebook_messages)%nat.
Proof. apply (filter_messages_window notebook_messages 3). lia. Defined.

Lemma filter_messages_negative_witness :
  filter_messages notebook_messages (-3) = drop (Z.to_nat (- -3)) notebook_messages ∧
  length (filter_messages notebook_messages (-3)) =
    (length notebook_messages - Z.to_nat (- -3))%nat ∧
  (Z.of_nat (length notebook_messages) ≤ - -3 →
   filter_messages notebook_messages (-3) = []).
Proof. apply (filter_messages_negative notebook_messages (-3)). lia. Defined.

Lemma filter_messages_snoc_witness :
  filter_messages (notebook_messages ++ [HumanMessage "what's my name?"]) 10 =
    drop (length notebook_messages - (Z.to_nat 10 - 1)) notebook_messages
      ++ [HumanMessage "what's my name?"].
Proof.
  apply (filter_messages_snoc notebook_messages (HumanMessage "what's my name?") 10).
  lia.
Defined.

Lemma filter_messages_compose_witness :
  filter_messages (filter_messages notebook_messages 7) 4 =
    filter_messages notebook_messages (7 `min` 4) ∧
  filter_messages (filter_messages notebook_messages 0) 0 =
    filter_messages notebook_messages 0.
Proof.
  split.
  - apply (proj1 (filter_messages_compose notebook_messages) 7 4); lia.
  - apply (proj2 (filter_messages_compose notebook_messages) 0). lia.
Defined.

(** ** The truncation step on whole dictionaries *)

(** Property X5: the step hands the prompt at most ten messages, the most recent ones, in
    their order; an input of ten messages or fewer passes through as it
    is. *)
Theorem chain_truncation_window (x : gmap string value) (msgs : list BaseMessage) :
  x !! "messages" = Some (VMessages msgs) →
  ∃ out, chain_truncation x = Ok (<["messages" := VMessages out]> x) ∧
         out `suffix_of` msgs ∧
         length out = (10 `min` length msgs)%nat ∧
         ((length msgs ≤ 10)%nat → chain_truncation x = Ok x).
Proof.
  intros Hmsgs.
  assert (Hrun : chain_truncation x =
            Ok (<["messages" := VMessages (filter_messages msgs 10)]> x)).
  { unfold chain_truncation, RunnablePassthrough_assign, truncate, dict_getitem.
    by rewrite Hmsgs. }
  assert (Hdrop : filter_messages msgs 10 = drop (length msgs - 10) msgs).
  { by rewrite filter_messages_pos by lia. }
  exists (filter_messages msgs 10). split_and!.
  - done.
  - rewrite Hdrop. apply suffix_drop.
  - rewrite Hdrop, length_drop. lia.
  - intros Hshort. rewrite Hrun, Hdrop.
    replace (length msgs - 10)%nat with 0%nat by lia.
    cbn [drop]. by rewrite insert_id.
Qed.

Lemma chain_truncation_window_witness :
  ∃ out, chain_truncation notebook_input =
           Ok (<["messages" := VMessages out]> notebook_input) ∧
         out `suffix_of` (notebook_messages ++ [HumanMessage "what's my name?"]) ∧
         length out =
           (10 `min` length (notebook_messages ++ [HumanMessage "what's my name?"]))%nat ∧
         ((length (notebook_messages ++ [HumanMessage "what's my name?"]) ≤ 10)%nat →
          chain_truncation notebook_input = Ok notebook_input).
Proof.
  apply (chain_truncation_window notebook_input).
  reflexivity.
Defined.



(** Property X7: running the step on its own output changes nothing, be
    the value under ["messages"] a list or a text. *)
Theorem chain_truncation_idempotent (x y : gmap string value) :
  chain_truncation x = Ok y → chain_truncation y = Ok y.
Proof.
  unfold chain_truncation, RunnablePassthrough_assign, truncate, dict_getitem.
  destruct (x !! "messages") as [[|z|s|l]|]; cbn; [done..| | |done].
  - intros [= <-]. rewrite lookup_insert_eq. cbn.
    by rewrite insert_insert_eq, filter_messages_idem.
  - intros [= <-]. rewrite lookup_insert_eq. cbn.
    by rewrite insert_insert_eq, filter_messages_idem.
Qed.

(** A text is cut by code points: of the thirteen of [hello wörld!!], whose
    [ö] is the single code point 246, the last ten stay. *)
Example chain_truncation_text :
  chain_truncation
    {[ "messages" := VStr [104; 101; 108; 108; 111; 32; 119; 246; 114; 108; 100; 33; 33]%N ]}
  = Ok {[ "messages" := VStr [108; 111; 32; 119; 246; 114; 108; 100; 33; 33]%N ]}.
Proof. reflexivity. Qed.

Lemma chain_truncation_idempotent_witness :
  chain_truncation
    (<[ "messages" := VMessages (tail notebook_messages ++ [HumanMessage "what's my name?"]) ]>
       notebook_input)
  = Ok (<[ "messages" := VMessages (tail notebook_messages ++ [HumanMessage "what's my name?"]) ]>
          notebook_input).
Proof.
  apply (chain_truncation_idempotent notebook_input).
  reflexivity.
Defined.

(** ** One history object per session *)

Section one_history_per_session.
Implicit Types (σ : state) (session_id : string) (h : loc).

Lemma get_session_history_bound σ session_id h σ' :
  get_session_history session_id σ = Ok (h, σ') →
  store σ' !! session_id = Some h.
Proof.
  intros Hcall.
  destruct (get_session_history_returns σ session_id) as (h0 & σ0 & Hcall0 & Hin).
  rewrite Hcall in Hcall0. by simplify_eq.
Qed.

Lemma get_session_history_injective σ session_id h σ' :
  store_injective σ →
  get_session_history session_id σ = Ok (h, σ') →
  store_injective σ'.
Proof.
  intros Hinj Hcall.
  destruct (store σ !! session_id) as [h0|] eqn:Hlook.
  - rewrite (get_session_history_present _ _ h0) in Hcall by done.
    by simplify_eq.
  - rewrite get_session_history_absent in Hcall by done.
    simplify_eq. intros s1 s2 h. cbn.
    destruct (decide (s1 = session_id)) as [->|Hne1];
      destruct (decide (s2 = session_id)) as [->|Hne2]; [done|..].
    + rewrite lookup_insert_eq, lookup_insert_ne by done.
      intros [= <-] Hs2. by destruct (new_loc_store σ s2).
    + rewrite lookup_insert_eq, lookup_insert_ne by done.
      intros Hs1 [= <-]. by destruct (new_loc_store σ s1).
    + rewrite !lookup_insert_ne by done. apply Hinj.
Qed.

(** The run of a sequence, taken apart at its first call. *)
Lemma get_session_histories_cons session_id ids σ hs σ' :
  get_session_histories (session_id :: ids) σ = Ok (hs, σ') →
  ∃ h σ1 hs', get_session_history session_id σ = Ok (h, σ1) ∧
              get_session_histories ids σ1 = Ok (hs', σ') ∧
              hs = h :: hs'.
Proof.
  cbn. unfold mbind, M_bind at 1.
  destruct (get_session_history session_id σ) as [[h σ1]|e]; [|done].
  unfold M_bind at 1.
  destruct (get_session_histories ids σ1) as [[hs' σ2]|e] eqn:Hrest; cbn; [|done].
  intros [= <- <-]. by exists h, σ1, hs'.
Qed.

Lemma get_session_histories_injective ids σ hs σ' :
  store_injective σ →
  get_session_histories ids σ = Ok (hs, σ') →
  store_injective σ'.
Proof.
  revert σ hs. induction ids as [|session_id ids IH]; intros σ hs Hinj Hrun.
  - by injection Hrun as <- <-.
  - apply get_session_histories_cons in Hrun as (h & σ1 & hs' & Hcall & Hrest & _).
    eapply IH; [|exact Hrest]. by eapply get_session_history_injective.
Qed.

(** Each history a sequence of calls returns is the one the final store
    binds to the id of that call. *)
Lemma get_session_histories_bound ids σ hs σ' :
  get_session_histories ids σ = Ok (hs, σ') →
  Forall2 (λ session_id h, store σ' !! session_id = Some h) ids hs.
Proof.
  revert σ hs. induction ids as [|session_id ids IH]; intros σ hs Hrun.
  - injection Hrun as <- <-. constructor.
  - apply get_session_histories_cons in Hrun as (h & σ1 & hs' & Hcall & Hrest & ->).
    constructor; [|by eapply IH].
    apply get_session_history_bound in Hcall.
    destruct (get_session_histories_stable ids σ1 session_id h Hcall)
      as (hs0 & σ0 & Hrest0 & Hin & _).
    rewrite Hrest in Hrest0. by simplify_eq.
Qed.

End one_history_per_session.

(** Property X8: sessions never share a history object: the empty store binds no two ids
    to one object, a call keeps it so, and so does any run of calls. *)
Theorem store_injective_invariant :
  (∀ hp, store_injective (initial hp)) ∧
  (∀ σ session_id h σ',
     store_injective σ →
     get_session_history session_id σ = Ok (h, σ') →
     store_injective σ') ∧
  (∀ hp ids hs σ',
     get_session_histories ids (initial hp) = Ok (hs, σ') →
     store_injective σ').
Proof.
  assert (Hinit : ∀ hp, store_injective (initial hp)).
  { intros hp s1 s2 h Hs1. cbn in Hs1. by rewrite lookup_empty in Hs1. }
  split_and!.
  - exact Hinit.
  - intros σ session_id h σ'. apply get_session_history_injective.
  - intros hp ids hs σ'. apply get_session_histories_injective, Hinit.
Qed.

Lemma bob_state_injective : store_injective bob_state.
Proof.
  intros s1 s2 h. cbn.
  intros [<- _]%lookup_singleton_Some [<- _]%lookup_singleton_Some. done.
Qed.

Lemma store_injective_invariant_witness :
  store_injective
    {| store := <["abc3" := 2%positive]> (store bob_state);
       heap := <[2%positive := ChatMessageHistory_init]> (heap bob_state) |} ∧
  store_injective
    {| store := <["abc3" := 2%positive]> {[ "abc2" := 1%positive ]};
       heap := <[2%positive := ChatMessageHistory_init]>
                 {[ 1%positive := ChatMessageHistory_init ]} |}.
Proof.
  split.
  - apply (proj1 (proj2 store_injective_invariant) bob_state "abc3" 2%positive).
    + exact bob_state_injective.
    + reflexivity.
  - apply (proj2 (proj2 store_injective_invariant) ∅ ["abc2"; "abc3"; "abc2"]
             [1; 2; 1]%positive).
    reflexivity.
Defined.

(** Property X9: within a run of calls that starts from the empty store, two calls return
    the same history object exactly when they were made with the same
    session id. *)
Theorem get_session_histories_same_iff
    (hp : gmap loc ChatMessageHistory) (ids : list string)
    (hs : list loc) (σ' : state) (i j : nat) (si sj : string) (hi hj : loc) :
  get_session_histories ids (initial hp) = Ok (hs, σ') →
  ids !! i = Some si → ids !! j = Some sj →
  hs !! i = Some hi → hs !! j = Some hj →
  (hi = hj ↔ si = sj).
Proof.
  intros Hrun Hsi Hsj Hhi Hhj.
  pose proof (get_session_histories_bound _ _ _ _ Hrun) as Hbound.
  assert (Hinj : store_injective σ').
  { eapply get_session_histories_injective; [|exact Hrun].
    intros s1 s2 h Hs1. cbn in Hs1. by rewrite lookup_empty in Hs1. }
  pose proof (Forall2_lookup_lr _ _ _ _ _ _ Hbound Hsi Hhi) as Hbi.
  pose proof (Forall2_lookup_lr _ _ _ _ _ _ Hbound Hsj Hhj) as Hbj.
  cbn beta in Hbi, Hbj. split.
  - intros Heq. subst hj. exact (Hinj si sj hi Hbi Hbj).
  - intros Heq. subst sj. congruence.
Qed.

Lemma get_session_histories_same_iff_witness :
  (1%positive = 1%positive ↔ "abc2" = "abc2") ∧
  (1%positive = 2%positive ↔ "abc2" = "abc3").
Proof.
  split.
  - eapply (get_session_histories_same_iff ∅ ["abc2"; "abc3"; "abc2"]
              [1; 2; 1]%positive _ 0 2); reflexivity.
  - eapply (get_session_histories_same_iff ∅ ["abc2"; "abc3"; "abc2"]
              [1; 2; 1]%positive _ 0 1); reflexivity.
Defined.
